(** * value/fields.go: ordered field lists

    A shallow embedding of [FieldList] from package [value]
    (sigs.k8s.io/structured-merge-diff): comparison, equality, sorting by
    name, the JSON decoding loop of [FieldListFromJSON] and the encoding loop
    of [FieldListToJSON].

    The polymorphic [Value] type of the package, with its package-level
    [Compare] and [Equals], lies outside value/fields.go; it is a parameter of
    the development.  Go strings are byte sequences compared byte-wise; they
    are modelled by [String.string] (a list of 8-bit [ascii]), whose
    [String.compare] is the byte-wise lexicographic order. *)

From Stdlib Require Import List Bool ZArith Lia String Ascii.
From Stdlib Require Import Sorting.Sorted Sorting.Permutation.
Import ListNotations.

Open Scope Z_scope.

(** Go's [strings.Compare]: -1, 0 or +1 by byte-wise lexicographic order. *)
Definition strings_Compare (a b : string) : Z :=
  match String.compare a b with
  | Lt => -1
  | Eq => 0
  | Gt => 1
  end.

(** Go's [a < b] on strings. *)
Definition string_lt (a b : string) : bool := String.ltb a b.

Section FieldList.

(** The package's polymorphic [Value] and its package-level [Compare] and
    [Equals] functions (value/value.go), used by value/fields.go. *)
Variable value : Type.
Variable Compare : value -> value -> Z.
Variable Equals : value -> value -> bool.

(** [type Field struct { Name string; Value Value }] *)
Record Field := mkField { Name : string; Value : value }.

(** [type FieldList []Field] *)
Definition FieldList := list Field.

(** ** [func (f FieldList) Compare(rhs FieldList) int]

    The unbounded [for] loop over the shared index [i], one unit of [fuel] per
    pass; [None] means the fuel ran out before the loop returned.  The test
    [i >= len(f)] is [nth_error f i = None]. *)
Fixpoint Compare_loop (fuel : nat) (f rhs : FieldList) (i : nat) : option Z :=
  match fuel with
  | O => None
  | S fuel' =>
      match nth_error f i, nth_error rhs i with
      | None, None => Some 0          (* same length, all items equal *)
      | None, Some _ => Some (-1)     (* f is shorter *)
      | Some _, None => Some 1        (* rhs is shorter *)
      | Some fi, Some ri =>
          let c := strings_Compare (Name fi) (Name ri) in
          if negb (c =? 0) then Some c else
          let c := Compare (Value fi) (Value ri) in
          if negb (c =? 0) then Some c else
          Compare_loop fuel' f rhs (S i)   (* i++ *)
      end
  end.

(** The number of passes that always suffices (claim C10 shows it). *)
Definition Compare_bound (f rhs : FieldList) : nat :=
  S (Nat.max (List.length f) (List.length rhs)).

(** [f.Compare(rhs)]: the loop started at [i := 0] and run for the bound
    above; the default [0] is never taken (see [Compare_terminates]). *)
Definition FieldList_Compare (f rhs : FieldList) : Z :=
  match Compare_loop (Compare_bound f rhs) f rhs 0 with
  | Some c => c
  | None => 0
  end.

(** [func (f FieldList) Less(rhs FieldList) bool] *)
Definition FieldList_Less (f rhs : FieldList) : bool :=
  FieldList_Compare f rhs =? -1.

(** ** [func (f FieldList) Equals(rhs FieldList) bool]

    The [for i := range f] loop, run once the lengths are known equal. *)
Fixpoint Equals_loop (f rhs : FieldList) : bool :=
  match f, rhs with
  | fi :: f', ri :: rhs' =>
      if negb (String.eqb (Name fi) (Name ri)) then false
      else if negb (Equals (Value fi) (Value ri)) then false
      else Equals_loop f' rhs'
  | _, _ => true
  end.

Definition FieldList_Equals (f rhs : FieldList) : bool :=
  if negb (Nat.eqb (List.length f) (List.length rhs)) then false
  else Equals_loop f rhs.

(** ** [func (f FieldList) Sort()]

    [sort.SliceStable] of the Go standard library is a stable sort; a stable
    sort's result is determined by its input and the [less] function, and it
    is modelled by the stable insertion sort below: an element is inserted
    after the later elements smaller than it and before the first later
    element that is not. *)
Fixpoint insert_stable (less : Field -> Field -> bool) (x : Field)
    (l : FieldList) : FieldList :=
  match l with
  | [] => [x]
  | y :: l' => if less y x then y :: insert_stable less x l' else x :: l
  end.

Fixpoint SliceStable (less : Field -> Field -> bool) (l : FieldList)
    : FieldList :=
  match l with
  | [] => []
  | x :: l' => insert_stable less x (SliceStable less l')
  end.

Definition name_less (a b : Field) : bool := string_lt (Name a) (Name b).

(** [Sort] returns the reordered slice (Go sorts it in place). *)
Definition Sort (f : FieldList) : FieldList :=
  match f with
  | [] | [_] => f                                        (* len(f) < 2 *)
  | [f0; f1] => if string_lt (Name f1) (Name f0) then [f1; f0] else f
  | _ => SliceStable name_less f
  end.

End FieldList.

Arguments mkField {value}.
Arguments Name {value}.
Arguments Value {value}.

(** ** [func FieldListFromJSON(input []byte) (FieldList, error)] *)

(** A result of a call [parser.Parse()] of the builder's [FastObjParser]: a raw
    token, the sentinel [io.EOF], or another error with its message. *)
Inductive parse_result :=
| PTok (raw : list Byte.byte)
| PEOF
| PErr (msg : string).

(** A Go pair [(T, error)] of an unmarshalling routine. *)
Inductive result (A : Type) :=
| Ok (a : A)
| Err (msg : string).

Arguments Ok {A}.
Arguments Err {A}.

(** One call [parser.Parse()]: its result and the parser's next state. *)
Definition Parse (st : list parse_result) : parse_result * list parse_result :=
  match st with
  | [] => (PEOF, [])
  | r :: st' => (r, st')
  end.

Section FromJSON.

Variable value : Type.
(** Go's [interface{}], the generic result of [builder.UnmarshalInterface]. *)
Variable any : Type.
Variable NewValueInterface : any -> value.
Variable UnmarshalString : list Byte.byte -> result string.
Variable UnmarshalInterface : list Byte.byte -> result any.
(** [builder.NewFastObjParser(input)]: the parser is a deterministic state
    machine over [input]; it is represented by the results its successive
    [Parse] calls return.  Once the list is used up, [Parse] returns [io.EOF]. *)
Variable NewFastObjParser : list Byte.byte -> list parse_result.

(** A Go error: [None] is [nil]; [Some m] is an error whose [Error()] is [m]. *)
Definition error := option string.

(** [fmt.Errorf("parsing JSON: %v", err)] *)
Definition parsing_JSON (msg : string) : error := Some ("parsing JSON: " ++ msg)%string.

(** The [for] loop: [st] is the parser's state, [fields] the list so far.
    Every [return nil, err] returns the nil (empty) list. *)
Fixpoint FromJSON_loop (st : list parse_result) (fields : FieldList value)
    : FieldList value * error :=
  match st with
  (* rawKey, err := parser.Parse() *)
  | [] | PEOF :: _ => (fields, None)                       (* break *)
  | PErr e :: _ => ([], parsing_JSON e)
  | PTok rawKey :: st1 =>
      match st1 with
      (* rawValue, err := parser.Parse() *)
      | [] | PEOF :: _ => ([], Some "unexpected EOF"%string)
      | PErr e :: _ => ([], parsing_JSON e)
      | PTok rawValue :: st2 =>
          match UnmarshalString rawKey with
          | Err e => ([], parsing_JSON e)
          | Ok k =>
              match UnmarshalInterface rawValue with
              | Err e => ([], parsing_JSON e)
              | Ok v =>
                  FromJSON_loop st2
                    (fields ++ [mkField k (NewValueInterface v)])
              end
          end
      end
  end.

Definition FieldListFromJSON (input : list Byte.byte) : FieldList value * error :=
  FromJSON_loop (NewFastObjParser input) [].

(** The parser results of key/value pairs read in full. *)
Definition pair_tokens (ps : list (list Byte.byte * list Byte.byte))
    : list parse_result :=
  flat_map (fun kv => [PTok (fst kv); PTok (snd kv)]) ps.

(** Both raw tokens of a pair decode without error. *)
Definition pair_decodes (kv : list Byte.byte * list Byte.byte) : Prop :=
  (exists k, UnmarshalString (fst kv) = Ok k) /\
  (exists v, UnmarshalInterface (snd kv) = Ok v).

(** The spec's "missing value for key": after pairs that were read and
    decoded in full, a key is read and the next [Parse] signals end of
    input. *)
Definition missing_value (st : list parse_result) : Prop :=
  exists ps rawKey rest,
    Forall pair_decodes ps /\
    st = pair_tokens ps ++ PTok rawKey :: rest /\
    fst (Parse rest) = PEOF.

(** The failures other than a missing value, met at the parser state [st]
    where the loop reads a key, each with the cause [m] of its error: the key
    token, the value token, the key unescape or the value unmarshal. *)
Inductive parse_failure (st : list parse_result) (m : string) : Prop :=
  | key_token_error (r : list parse_result) :
      st = PErr m :: r -> parse_failure st m
  | value_token_error (rawKey : list Byte.byte) (r : list parse_result) :
      st = PTok rawKey :: PErr m :: r -> parse_failure st m
  | key_unescape_error (rawKey rawValue : list Byte.byte) (r : list parse_result) :
      st = PTok rawKey :: PTok rawValue :: r ->
      UnmarshalString rawKey = Err m -> parse_failure st m
  | value_unmarshal_error (rawKey rawValue : list Byte.byte) (r : list parse_result)
      (k : string) :
      st = PTok rawKey :: PTok rawValue :: r ->
      UnmarshalString rawKey = Ok k ->
      UnmarshalInterface rawValue = Err m -> parse_failure st m.

(** A raw key/value pair decodes to the field [f]. *)
Definition decodes_to (kv : list Byte.byte * list Byte.byte) (f : Field value)
    : Prop :=
  UnmarshalString (fst kv) = Ok (Name f) /\
  exists x, UnmarshalInterface (snd kv) = Ok x /\ Value f = NewValueInterface x.

End FromJSON.

(** ** [func FieldListToJSON(v FieldList, w *builder.JSONBuilder) error] *)

Section ToJSON.

Variable value any : Type.
(** [Value.Unstructured()]: the plain Go form of a value. *)
Variable Unstructured : value -> any.
(** Go's implicit conversion of a [string] to [interface{}]. *)
Variable string_any : string -> any.

(** Modelled from the spec: [builder.JSONBuilder] (internal/builder, not under
    src/), an incremental JSON builder; its state is the bytes written so far,
    [WriteByte] appends one byte, and [WriteJSON] is the builder's generic
    value emission, which returns the new state and an error. *)
Definition WriteByte (w : list Byte.byte) (b : Byte.byte) : list Byte.byte :=
  w ++ [b].
Variable WriteJSON : list Byte.byte -> any -> list Byte.byte * error.

(** The [for i, f := range v] loop: [i] is the index of the first field of
    [rest], [n] is [len(v)]. *)
Fixpoint ToJSON_loop (w : list Byte.byte) (i n : nat) (rest : FieldList value)
    : list Byte.byte * error :=
  match rest with
  | [] => (w, None)
  | f :: rest' =>
      let (w, err) := WriteJSON w (string_any (Name f)) in
      match err with
      | Some e => (w, Some e)
      | None =>
          let w := WriteByte w Byte.x3a in                         (* ':' *)
          let (w, err) := WriteJSON w (Unstructured (Value f)) in
          match err with
          | Some e => (w, Some e)
          | None =>
              let w := if (i <? n - 1)%nat then WriteByte w Byte.x2c  (* ',' *)
                       else w in
              ToJSON_loop w (S i) n rest'
          end
      end
  end.

(** Returns the builder's final state with the error. *)
Definition FieldListToJSON (v : FieldList value) (w : list Byte.byte)
    : list Byte.byte * error :=
  let w := WriteByte w Byte.x7b in                                 (* '{' *)
  match ToJSON_loop w 0 (List.length v) v with
  | (w, Some e) => (w, Some e)
  | (w, None) => (WriteByte w Byte.x7d, None)                      (* '}' *)
  end.

End ToJSON.

(** Byte strings joined with [','] between consecutive ones. *)
Fixpoint join_comma (l : list (list Byte.byte)) : list Byte.byte :=
  match l with
  | [] => []
  | [x] => x
  | x :: l' => x ++ Byte.x2c :: join_comma l'
  end.

Arguments ToJSON_loop {value any}.
Arguments FieldListToJSON {value any}.

Arguments FieldList_Compare {value}.
Arguments FieldList_Less {value}.
Arguments FieldList_Equals {value}.
Arguments Compare_loop {value}.
Arguments Compare_bound {value}.
Arguments Sort {value}.
Arguments SliceStable {value}.
Arguments insert_stable {value}.
Arguments name_less {value}.
Arguments FromJSON_loop {value any}.
Arguments FieldListFromJSON {value any}.
Arguments missing_value {any}.
Arguments parse_failure {any}.
Arguments pair_decodes {any}.
Arguments decodes_to {value any}.

(** The loop of [FieldList.Compare] written as structural recursion over
    the two lists (the proofs below show it is what the loop computes). *)
Fixpoint lex_compare {value} (Compare : value -> value -> Z)
    (f rhs : FieldList value) : Z :=
  match f, rhs with
  | [], [] => 0
  | [], _ :: _ => -1
  | _ :: _, [] => 1
  | fi :: f', ri :: rhs' =>
      let c := strings_Compare (Name fi) (Name ri) in
      if negb (c =? 0) then c else
      let c := Compare (Value fi) (Value ri) in
      if negb (c =? 0) then c else
      lex_compare Compare f' rhs'
  end.

(** Fields are in non-decreasing byte-wise order of [Name]. *)
Definition name_le {value} (a b : Field value) : Prop :=
  String.leb (Name a) (Name b) = true.

(** A concrete [Value] for evaluating the statements below: integers, with
    the three-way comparison and the equality of Go integers. *)
Definition int_Compare (a b : Z) : Z :=
  match Z.compare a b with
  | Lt => -1
  | Eq => 0
  | Gt => 1
  end.

Definition int_Equals (a b : Z) : bool := Z.eqb a b.

(** ** Facts on byte-wise string order *)

Lemma string_compare_refl (s : string) : String.compare s s = Eq.
Proof.
  pose proof (String.compare_antisym s s) as H.
  destruct (String.compare s s); simpl in H; congruence.
Qed.

Lemma strings_Compare_zero (a b : string) : strings_Compare a b = 0 <-> a = b.
Proof.
  unfold strings_Compare; split.
  - destruct (String.compare a b) eqn:E; try discriminate.
    intros _; now apply String.compare_eq_iff.
  - intros ->; now rewrite string_compare_refl.
Qed.

Lemma strings_Compare_antisym (a b : string) :
  strings_Compare a b = - strings_Compare b a.
Proof.
  unfold strings_Compare; rewrite (String.compare_antisym a b).
  now destruct (String.compare b a).
Qed.

Lemma string_lt_false_le (a b : string) :
  string_lt b a = false -> String.leb a b = true.
Proof.
  unfold string_lt, String.ltb, String.leb.
  rewrite (String.compare_antisym a b).
  now destruct (String.compare b a).
Qed.

Lemma string_lt_le (a b : string) :
  string_lt a b = true -> String.leb a b = true.
Proof.
  unfold string_lt, String.ltb, String.leb.
  now destruct (String.compare a b).
Qed.

Lemma string_le_not_lt (a b : string) :
  String.leb a b = true -> string_lt b a = false.
Proof.
  unfold string_lt, String.ltb, String.leb.
  rewrite (String.compare_antisym a b).
  now destruct (String.compare b a).
Qed.

Lemma string_lt_neq (a b : string) : string_lt a b = true -> a <> b.
Proof.
  unfold string_lt, String.ltb; intros H ->.
  now rewrite string_compare_refl in H.
Qed.

(** ** The loop of [Compare] *)

Section CompareLoop.

Context {value : Type} (Compare : value -> value -> Z).

Lemma skipn_nth_error (l : FieldList value) (i : nat) :
  skipn i l = match nth_error l i with
              | None => []
              | Some a => a :: skipn (S i) l
              end.
Proof.
  revert i; induction l as [|a l IH]; intros [|i]; simpl; auto.
Qed.

Lemma Compare_loop_lex (f rhs : FieldList value) :
  forall fuel i, (Nat.max (List.length f) (List.length rhs) <= i + fuel)%nat ->
  Compare_loop Compare (S fuel) f rhs i =
    Some (lex_compare Compare (skipn i f) (skipn i rhs)).
Proof.
  induction fuel as [|fuel IH]; intros i Hb.
  - assert (Hf : nth_error f i = None) by (apply nth_error_None; lia).
    assert (Hr : nth_error rhs i = None) by (apply nth_error_None; lia).
    rewrite (skipn_nth_error f i), (skipn_nth_error rhs i), Hf, Hr.
    simpl; now rewrite Hf, Hr.
  - rewrite (skipn_nth_error f i), (skipn_nth_error rhs i).
    remember (S fuel) as n eqn:En.
    cbn [Compare_loop].
    destruct (nth_error f i) as [fi|], (nth_error rhs i) as [ri|]; auto.
    cbn [lex_compare].
    destruct (negb (strings_Compare (Name fi) (Name ri) =? 0)); auto.
    destruct (negb (Compare (Value fi) (Value ri) =? 0)); auto.
    subst n; apply IH; lia.
Qed.

Lemma FieldList_Compare_lex (f rhs : FieldList value) :
  FieldList_Compare Compare f rhs = lex_compare Compare f rhs.
Proof.
  unfold FieldList_Compare, Compare_bound.
  rewrite (Compare_loop_lex f rhs (Nat.max (List.length f) (List.length rhs)) 0)
    by lia.
  reflexivity.
Qed.

End CompareLoop.

(** ** The stable insertion sort behind [Sort] *)

Section SortFacts.

Context {value : Type}.

Lemma Sort_SliceStable (f : FieldList value) :
  Sort f = SliceStable name_less f.
Proof.
  destruct f as [|f0 [|f1 [|f2 f]]]; reflexivity.
Qed.

Lemma insert_stable_perm (x : Field value) (l : FieldList value) :
  Permutation (insert_stable name_less x l) (x :: l).
Proof.
  induction l as [|y l IH]; simpl; [reflexivity|].
  destruct (name_less y x); [|reflexivity].
  rewrite IH; apply perm_swap.
Qed.

Lemma SliceStable_perm (l : FieldList value) :
  Permutation (SliceStable name_less l) l.
Proof.
  induction l as [|x l IH]; simpl; [reflexivity|].
  rewrite insert_stable_perm; now constructor.
Qed.

Lemma insert_stable_hdrel (x y : Field value) (l : FieldList value) :
  HdRel name_le y l -> name_le y x -> HdRel name_le y (insert_stable name_less x l).
Proof.
  destruct l as [|z l]; simpl; intros Hy Hyx.
  - now constructor.
  - destruct (name_less z x); constructor; auto.
    now inversion Hy.
Qed.

Lemma insert_stable_sorted (x : Field value) (l : FieldList value) :
  Sorted name_le l -> Sorted name_le (insert_stable name_less x l).
Proof.
  induction l as [|y l IH]; simpl; intros Hs.
  - now repeat constructor.
  - apply Sorted_inv in Hs as [Hs Hhd].
    unfold name_less; destruct (string_lt (Name y) (Name x)) eqn:E.
    + constructor; [now apply IH|].
      apply insert_stable_hdrel; [assumption|].
      now apply string_lt_le.
    + constructor; [now constructor|].
      constructor; now apply string_lt_false_le.
Qed.

Lemma SliceStable_sorted (l : FieldList value) :
  Sorted name_le (SliceStable name_less l).
Proof.
  induction l as [|x l IH]; simpl; [constructor|].
  now apply insert_stable_sorted.
Qed.

Lemma insert_stable_filter (n : string) (x : Field value) (l : FieldList value) :
  filter (fun a => String.eqb (Name a) n) (insert_stable name_less x l) =
  filter (fun a => String.eqb (Name a) n) (x :: l).
Proof.
  induction l as [|y l IH]; [reflexivity|].
  cbn [insert_stable]; unfold name_less at 1.
  destruct (string_lt (Name y) (Name x)) eqn:E; [|reflexivity].
  cbn [filter]; rewrite IH; cbn [filter].
  destruct (String.eqb_spec (Name x) n) as [Hx|Hx];
    destruct (String.eqb_spec (Name y) n) as [Hy|Hy]; try reflexivity.
  exfalso; apply (string_lt_neq _ _ E); congruence.
Qed.

Lemma SliceStable_filter (n : string) (l : FieldList value) :
  filter (fun a => String.eqb (Name a) n) (SliceStable name_less l) =
  filter (fun a => String.eqb (Name a) n) l.
Proof.
  induction l as [|x l IH]; [reflexivity|].
  cbn [SliceStable]; rewrite insert_stable_filter; simpl.
  now rewrite IH.
Qed.

Lemma SliceStable_sorted_id (l : FieldList value) :
  Sorted name_le l -> SliceStable name_less l = l.
Proof.
  induction l as [|x l IH]; simpl; intros Hs; [reflexivity|].
  apply Sorted_inv in Hs as [Hs Hhd].
  rewrite (IH Hs).
  destruct l as [|y l]; [reflexivity|].
  simpl; unfold name_less.
  inversion Hhd as [|? ? Hxy]; subst.
  now rewrite (string_le_not_lt _ _ Hxy).
Qed.

End SortFacts.

(** ** The loop of [FieldListFromJSON] *)

Section FromJSONFacts.

Context {value any : Type} (NewValueInterface : any -> value)
  (UnmarshalString : list Byte.byte -> result string)
  (UnmarshalInterface : list Byte.byte -> result any).

(** Induction following the passes of the loop: each pass consumes a key and
    a value, or stops. *)
Lemma parse_results_ind (P : list parse_result -> Prop) :
  P [] ->
  (forall st, P (PEOF :: st)) ->
  (forall m st, P (PErr m :: st)) ->
  (forall k, P [PTok k]) ->
  (forall k st, P (PTok k :: PEOF :: st)) ->
  (forall k m st, P (PTok k :: PErr m :: st)) ->
  (forall k v st, P st -> P (PTok k :: PTok v :: st)) ->
  forall st, P st.
Proof.
  intros H0 HE HR H1 HKE HKR HKV.
  fix IH 1.
  intros [|[k| |m] [|[v| |m'] st]];
    first [ apply HKV, IH | clear IH; auto ].
Qed.

(** The two error messages of the loop. *)
Local Ltac err_kind :=
  solve [ left; reflexivity | right; eexists; reflexivity ].

Lemma FromJSON_loop_error (st : list parse_result) :
  forall fields l e,
  FromJSON_loop NewValueInterface UnmarshalString UnmarshalInterface st fields
    = (l, Some e) ->
  l = [] /\
  (e = "unexpected EOF"%string \/ exists m, e = ("parsing JSON: " ++ m)%string).
Proof.
  induction st as [|st|m st|k|k st|k m st|k v st IHst]
    using parse_results_ind; intros fields l e H;
    cbn [FromJSON_loop] in H; unfold parsing_JSON in H;
    try discriminate;
    try (injection H as <- <-; split; [reflexivity|]; err_kind).
  destruct (UnmarshalString k) as [key|m];
    [destruct (UnmarshalInterface v) as [x|m]|].
  - eapply IHst; exact H.
  - injection H as <- <-; split; [reflexivity|]; err_kind.
  - injection H as <- <-; split; [reflexivity|]; err_kind.
Qed.

Lemma FromJSON_loop_missing_value (st : list parse_result) :
  forall fields,
  FromJSON_loop NewValueInterface UnmarshalString UnmarshalInterface st fields
    = ([], Some "unexpected EOF"%string) ->
  missing_value UnmarshalString UnmarshalInterface st.
Proof.
  induction st as [|st|m st|k|k st|k m st|k v st IHst]
    using parse_results_ind; intros fields H; simpl in H;
    try discriminate.
  - now exists [], k, [].
  - now exists [], k, (PEOF :: st).
  - destruct (UnmarshalString k) as [key|m] eqn:Ek;
      [destruct (UnmarshalInterface v) as [x|m] eqn:Ev|];
      simpl in H; try discriminate.
    destruct (IHst _ H) as (ps & rawKey & rest & Hps & -> & Hrest).
    exists ((k, v) :: ps), rawKey, rest.
    split; [|split; [reflexivity|assumption]].
    constructor; [|assumption].
    split; simpl; eauto.
Qed.

Lemma missing_value_FromJSON_loop (ps : list (list Byte.byte * list Byte.byte))
    (rawKey : list Byte.byte) (rest : list parse_result) :
  Forall (pair_decodes UnmarshalString UnmarshalInterface) ps ->
  fst (Parse rest) = PEOF ->
  forall fields,
  FromJSON_loop NewValueInterface UnmarshalString UnmarshalInterface
    (pair_tokens ps ++ PTok rawKey :: rest) fields
    = ([], Some "unexpected EOF"%string).
Proof.
  intros Hps Hrest.
  induction Hps as [|[k v] ps [[key Ek] [x Ev]] Hps IH]; intros fields.
  - destruct rest as [|[r| |m] rest]; simpl in Hrest; try discriminate;
      reflexivity.
  - simpl in Ek, Ev; simpl.
    rewrite Ek, Ev; apply IH.
Qed.

Lemma parse_failure_FromJSON_loop (ps : list (list Byte.byte * list Byte.byte))
    (rest : list parse_result) (m : string) :
  Forall (pair_decodes UnmarshalString UnmarshalInterface) ps ->
  parse_failure UnmarshalString UnmarshalInterface rest m ->
  forall fields,
  FromJSON_loop NewValueInterface UnmarshalString UnmarshalInterface
    (pair_tokens ps ++ rest) fields = ([], parsing_JSON m).
Proof.
  intros Hps Hf.
  induction Hps as [|[k v] ps [[key Ek] [x Ev]] Hps IH]; intros fields.
  - destruct Hf as [r -> | rawKey r -> | rawKey rawValue r -> E
                   | rawKey rawValue r key -> Ek Ev]; simpl;
      try rewrite E; try rewrite Ek, Ev; reflexivity.
  - simpl in Ek, Ev; simpl.
    rewrite Ek, Ev; apply IH.
Qed.

End FromJSONFacts.

(** ** [Compare] and [Equals] as structural recursion *)

Section LexFacts.

Context {value : Type} (Compare : value -> value -> Z)
  (Equals : value -> value -> bool).

Lemma FieldList_Equals_cons (a b : Field value) (f r : FieldList value) :
  FieldList_Equals Equals (a :: f) (b :: r) =
  String.eqb (Name a) (Name b) && Equals (Value a) (Value b) &&
  FieldList_Equals Equals f r.
Proof.
  unfold FieldList_Equals; cbn [List.length Equals_loop].
  cbn [Nat.eqb].
  destruct (String.eqb (Name a) (Name b)), (Equals (Value a) (Value b)),
    (Nat.eqb (List.length f) (List.length r)); reflexivity.
Qed.

Hypothesis Equals_Compare :
  forall a b : value, Equals a b = true <-> Compare a b = 0.

Lemma lex_compare_zero_Equals (f rhs : FieldList value) :
  lex_compare Compare f rhs = 0 <-> FieldList_Equals Equals f rhs = true.
Proof.
  revert rhs; induction f as [|a f IH]; intros [|b rhs].
  - split; reflexivity.
  - split; discriminate.
  - split; discriminate.
  - rewrite FieldList_Equals_cons; cbn [lex_compare].
    destruct (String.eqb_spec (Name a) (Name b)) as [Hn|Hn].
    + rewrite (proj2 (strings_Compare_zero _ _) Hn); cbn [Z.eqb negb andb].
      destruct (Compare (Value a) (Value b) =? 0) eqn:Ev; simpl.
      * apply Z.eqb_eq, Equals_Compare in Ev; rewrite Ev; apply IH.
      * destruct (Equals (Value a) (Value b)) eqn:Eq.
        -- apply Equals_Compare in Eq; rewrite Eq in Ev; discriminate.
        -- apply Z.eqb_neq in Ev; split; [intros H; contradiction|discriminate].
    + destruct (strings_Compare (Name a) (Name b) =? 0) eqn:Es; simpl.
      * apply Z.eqb_eq, strings_Compare_zero in Es; contradiction.
      * apply Z.eqb_neq in Es; split; [intros H; contradiction|discriminate].
Qed.

End LexFacts.

Section LexOrder.

Context {value : Type} (Compare : value -> value -> Z).

Lemma lex_compare_antisym :
  (forall a b : value, Compare a b = - Compare b a) ->
  forall f rhs : FieldList value,
  lex_compare Compare f rhs = - lex_compare Compare rhs f.
Proof.
  intros Hanti f; induction f as [|a f IH]; intros [|b rhs]; try reflexivity.
  cbn [lex_compare].
  rewrite (strings_Compare_antisym (Name b) (Name a)),
    (Hanti (Value b) (Value a)).
  destruct (strings_Compare (Name a) (Name b)); simpl; try lia.
  destruct (Compare (Value a) (Value b)); simpl; try lia.
  apply IH.
Qed.

(** Position-wise agreement of the shared prefix, as [Compare] sees it. *)
Lemma lex_compare_prefix (P Q : FieldList value) :
  (List.length P < List.length Q)%nat ->
  (forall i p q, nth_error P i = Some p -> nth_error Q i = Some q ->
     Name p = Name q /\ Compare (Value p) (Value q) = 0 /\
     Compare (Value q) (Value p) = 0) ->
  lex_compare Compare P Q = -1 /\ lex_compare Compare Q P = 1.
Proof.
  revert Q; induction P as [|p P IH]; intros [|q Q] Hlen Hagree;
    simpl in Hlen; try lia.
  - split; reflexivity.
  - destruct (Hagree 0%nat p q eq_refl eq_refl) as (Hn & Hpq & Hqp).
    cbn [lex_compare].
    rewrite Hn, (proj2 (strings_Compare_zero _ _) eq_refl), Hpq, Hqp.
    apply IH; [lia|].
    intros i; exact (Hagree (S i)).
Qed.

End LexOrder.

(** * The claims *)

(** ** C1 *)

(** Claim C1: when the package's value equality holds exactly when the
    value comparison returns 0, [FieldList.Equals(A,B)] is true if and only if
    [FieldList.Compare(A,B)] returns 0, for all field lists [A] and [B]. *)
Theorem Equals_iff_Compare_zero {value : Type} (Compare : value -> value -> Z)
    (Equals : value -> value -> bool) :
  (forall a b : value, Equals a b = true <-> Compare a b = 0) ->
  forall A B : FieldList value,
  FieldList_Equals Equals A B = true <-> FieldList_Compare Compare A B = 0.
Proof.
  intros HEC A B.
  rewrite FieldList_Compare_lex.
  symmetry; now apply lex_compare_zero_Equals.
Qed.

Lemma Equals_iff_Compare_zero_witness :
  (forall a b : Z, int_Equals a b = true <-> int_Compare a b = 0) /\
  (FieldList_Equals int_Equals [mkField "a" 1; mkField "b" 2]
                               [mkField "a" 1; mkField "b" 3] = true <->
   FieldList_Compare int_Compare [mkField "a" 1; mkField "b" 2]
                                 [mkField "a" 1; mkField "b" 3] = 0).
Proof.
  assert (H : forall a b : Z, int_Equals a b = true <-> int_Compare a b = 0).
  { intros a b; unfold int_Equals, int_Compare; rewrite Z.eqb_eq.
    destruct (Z.compare_spec a b); split; intros H'; cbn in *; lia. }
  split; [exact H|].
  apply (Equals_iff_Compare_zero int_Compare int_Equals H).
Defined.

(** ** C2 *)

(** Claim C2: when the value comparison is antisymmetric,
    [Compare(A,B) = -Compare(B,A)] for all field lists, and [Compare(A,A) = 0]. *)
Theorem Compare_antisym {value : Type} (Compare : value -> value -> Z) :
  (forall a b : value, Compare a b = - Compare b a) ->
  forall A B : FieldList value,
  FieldList_Compare Compare A B = - FieldList_Compare Compare B A /\
  FieldList_Compare Compare A A = 0.
Proof.
  intros Hanti A B.
  rewrite !FieldList_Compare_lex.
  split; [now apply lex_compare_antisym|].
  pose proof (lex_compare_antisym Compare Hanti A A); lia.
Qed.

Lemma Compare_antisym_witness :
  (forall a b : Z, int_Compare a b = - int_Compare b a) /\
  (FieldList_Compare int_Compare [mkField "b" 1] [mkField "a" 1; mkField "c" 2]
   = - FieldList_Compare int_Compare [mkField "a" 1; mkField "c" 2] [mkField "b" 1] /\
   FieldList_Compare int_Compare [mkField "b" 1] [mkField "b" 1] = 0).
Proof.
  assert (H : forall a b : Z, int_Compare a b = - int_Compare b a).
  { intros a b; unfold int_Compare; rewrite (Z.compare_antisym a b).
    destruct (Z.compare a b); reflexivity. }
  split; [exact H|].
  apply (Compare_antisym int_Compare H).
Defined.

(** ** C4 *)

(** Claim C4: if [Q] is longer than [P] and at every position they share the
    two fields have the same name and values the value comparison finds equal
    (both ways), then [Compare(P,Q) = -1] and [Compare(Q,P) = +1]; the
    witness is the spec's scenario [Compare([{a,1}], [{a,1},{b,2}]) = -1]. *)
Theorem Compare_prefix_shorter {value : Type} (Compare : value -> value -> Z)
    (P Q : FieldList value) :
  (List.length P < List.length Q)%nat ->
  (forall i p q, nth_error P i = Some p -> nth_error Q i = Some q ->
     Name p = Name q /\ Compare (Value p) (Value q) = 0 /\
     Compare (Value q) (Value p) = 0) ->
  FieldList_Compare Compare P Q = -1 /\ FieldList_Compare Compare Q P = 1.
Proof.
  intros Hlen Hagree.
  rewrite !FieldList_Compare_lex.
  now apply lex_compare_prefix.
Qed.

Lemma Compare_prefix_shorter_witness :
  FieldList_Compare int_Compare [mkField "a" 1] [mkField "a" 1; mkField "b" 2] = -1 /\
  FieldList_Compare int_Compare [mkField "a" 1; mkField "b" 2] [mkField "a" 1] = 1.
Proof.
  apply Compare_prefix_shorter.
  - simpl; lia.
  - intros [|i] p q Hp Hq; simpl in Hp, Hq.
    + injection Hp as <-; injection Hq as <-; repeat split.
    + destruct i; discriminate.
Defined.

(** ** C10 *)

(** Claim C10: the loop of [FieldList.Compare] returns within
    [max(len(f), len(rhs)) + 1] passes for all finite lists: run with at least
    that many passes it returns, and always the same result. *)
Theorem Compare_terminates {value : Type} (Compare : value -> value -> Z)
    (f rhs : FieldList value) (fuel : nat) :
  (Compare_bound f rhs <= fuel)%nat ->
  Compare_loop Compare fuel f rhs 0 = Some (FieldList_Compare Compare f rhs).
Proof.
  intros Hb; unfold Compare_bound in Hb.
  destruct fuel as [|fuel]; [lia|].
  rewrite Compare_loop_lex by lia.
  now rewrite FieldList_Compare_lex.
Qed.

Lemma Compare_terminates_witness :
  (Compare_bound [mkField "a" 1] [mkField "a" 1; mkField "b" 2] <= 3)%nat /\
  Compare_loop int_Compare 3 [mkField "a" 1] [mkField "a" 1; mkField "b" 2] 0
  = Some (FieldList_Compare int_Compare [mkField "a" 1] [mkField "a" 1; mkField "b" 2]).
Proof.
  split; [unfold Compare_bound; simpl; lia|].
  apply Compare_terminates; unfold Compare_bound; simpl; lia.
Defined.

(** ** C5 *)

(** Claim C5: [Sort] returns a permutation of the original fields (each
    field, with its [Value], is moved and never changed), in non-decreasing
    byte-wise lexicographic order of [Name]. *)
Theorem Sort_sorted_perm {value : Type} (f : FieldList value) :
  Permutation (Sort f) f /\ Sorted name_le (Sort f).
Proof.
  rewrite Sort_SliceStable.
  split; [apply SliceStable_perm | apply SliceStable_sorted].
Qed.

(** ** C6 *)

(** Claim C6: [Sort] is stable for every length, the special cases of 0, 1
    and 2 fields included: the fields of any one name appear after [Sort] in
    the order they had before. *)
Theorem Sort_stable {value : Type} (n : string) (f : FieldList value) :
  filter (fun a => String.eqb (Name a) n) (Sort f) =
  filter (fun a => String.eqb (Name a) n) f.
Proof.
  rewrite Sort_SliceStable; apply SliceStable_filter.
Qed.

(** ** C7 *)

(** Claim C7: [Sort] is idempotent: sorting twice gives the order of sorting
    once, and a list already in order of [Name] is left unchanged. *)
Theorem Sort_idempotent {value : Type} (f : FieldList value) :
  Sort (Sort f) = Sort f /\ (Sorted name_le f -> Sort f = f).
Proof.
  split.
  - rewrite (Sort_SliceStable (Sort f)).
    apply SliceStable_sorted_id; rewrite Sort_SliceStable;
    apply SliceStable_sorted.
  - intros Hs; rewrite Sort_SliceStable; now apply SliceStable_sorted_id.
Qed.

(** ** C8 *)

(** Claim C8: every error of [FieldListFromJSON] comes with the nil field
    list, and its message is either ["unexpected EOF"] or
    ["parsing JSON: "] followed by the cause; it is ["unexpected EOF"]
    exactly when, after pairs read and decoded in full, a key is read and the
    next [Parse] signals end of input.  Every other failure met after pairs
    read and decoded in full (of the key token, the value token, the key
    unescape or the value unmarshal, with cause [m]) makes
    [FieldListFromJSON] return the nil list and the error
    ["parsing JSON: " ++ m]. *)
Theorem FromJSON_error_taxonomy {value any : Type}
    (NewValueInterface : any -> value)
    (UnmarshalString : list Byte.byte -> result string)
    (UnmarshalInterface : list Byte.byte -> result any)
    (NewFastObjParser : list Byte.byte -> list parse_result)
    (input : list Byte.byte) :
  (forall l e,
     FieldListFromJSON NewValueInterface UnmarshalString UnmarshalInterface
       NewFastObjParser input = (l, Some e) ->
     l = [] /\
     (e = "unexpected EOF"%string \/
      exists m, e = ("parsing JSON: " ++ m)%string)) /\
  (FieldListFromJSON NewValueInterface UnmarshalString UnmarshalInterface
     NewFastObjParser input = ([], Some "unexpected EOF"%string) <->
   missing_value UnmarshalString UnmarshalInterface (NewFastObjParser input)) /\
  (forall ps rest m,
     Forall (pair_decodes UnmarshalString UnmarshalInterface) ps ->
     NewFastObjParser input = pair_tokens ps ++ rest ->
     parse_failure UnmarshalString UnmarshalInterface rest m ->
     FieldListFromJSON NewValueInterface UnmarshalString UnmarshalInterface
       NewFastObjParser input = ([], Some ("parsing JSON: " ++ m)%string)).
Proof.
  unfold FieldListFromJSON; split; [|split].
  - apply FromJSON_loop_error.
  - split.
    + apply FromJSON_loop_missing_value.
    + intros (ps & rawKey & rest & Hps & -> & Hrest).
      now apply missing_value_FromJSON_loop.
  - intros ps rest m Hps -> Hf.
    now apply parse_failure_FromJSON_loop.
Qed.

Lemma FromJSON_error_taxonomy_witness :
  FieldListFromJSON (fun x : Z => x) (fun _ => Ok "a"%string)
    (fun raw => match raw with [] => Err "bad value"%string | _ => Ok 0 end)
    (fun _ => [PTok [Byte.x61]; PTok [Byte.x31]; PTok [Byte.x62]; PTok []])
    [] = ([], Some "parsing JSON: bad value"%string).
Proof.
  apply (proj2 (proj2 (FromJSON_error_taxonomy (fun x : Z => x)
    (fun _ => Ok "a"%string)
    (fun raw => match raw with [] => Err "bad value"%string | _ => Ok 0 end)
    (fun _ => [PTok [Byte.x61]; PTok [Byte.x31]; PTok [Byte.x62]; PTok []])
    [])) [([Byte.x61], [Byte.x31])] [PTok [Byte.x62]; PTok []]).
  - repeat constructor; eexists; reflexivity.
  - reflexivity.
  - eapply value_unmarshal_error; reflexivity.
Defined.

(** ** C9 *)

(** Claim C9: when the first [Parse] (the first key read) signals end of
    input, as for the empty object [{}], [FieldListFromJSON] returns the
    empty field list and a nil error. *)
Theorem FromJSON_empty_object {value any : Type}
    (NewValueInterface : any -> value)
    (UnmarshalString : list Byte.byte -> result string)
    (UnmarshalInterface : list Byte.byte -> result any)
    (NewFastObjParser : list Byte.byte -> list parse_result)
    (input : list Byte.byte) :
  fst (Parse (NewFastObjParser input)) = PEOF ->
  FieldListFromJSON NewValueInterface UnmarshalString UnmarshalInterface
    NewFastObjParser input = ([], None).
Proof.
  unfold FieldListFromJSON; intros H.
  destruct (NewFastObjParser input) as [|[r| |m] st]; simpl in H;
    try discriminate; reflexivity.
Qed.

Lemma FromJSON_empty_object_witness :
  fst (Parse [PEOF]) = PEOF /\
  FieldListFromJSON (fun x : Z => x) (fun _ => Ok ""%string) (fun _ => Ok 0)
    (fun _ => [PEOF]) [Byte.x7b; Byte.x7d] = ([], None).
Proof.
  split; [reflexivity|].
  apply FromJSON_empty_object; reflexivity.
Defined.

(** ** Scenarios of the spec *)

Example Sort_scenario :
  Sort [mkField "b" 2; mkField "a" 1] = [mkField "a" 1; mkField "b" 2].
Proof. reflexivity. Qed.

Example FromJSON_key_without_value :
  FieldListFromJSON (fun x : Z => x) (fun _ => Ok "a"%string) (fun _ => Ok 0)
    (fun _ => [PTok [Byte.x22; Byte.x61; Byte.x22]])
    [Byte.x7b; Byte.x22; Byte.x61; Byte.x22; Byte.x3a; Byte.x7d]
  = ([], Some "unexpected EOF"%string).
Proof. reflexivity. Qed.

(** * Further properties of value/fields.go *)

(** ** Transitivity of byte-wise string order *)

Lemma ascii_compare_refl (x : ascii) : Ascii.compare x x = Eq.
Proof. unfold Ascii.compare; apply N.compare_refl. Qed.

Lemma ascii_compare_lt_trans (x y z : ascii) :
  Ascii.compare x y = Lt -> Ascii.compare y z = Lt -> Ascii.compare x z = Lt.
Proof. unfold Ascii.compare; rewrite !N.compare_lt_iff; lia. Qed.

Lemma string_compare_lt_trans (a b c : string) :
  String.compare a b = Lt -> String.compare b c = Lt -> String.compare a c = Lt.
Proof.
  revert b c; induction a as [|x a IH]; intros [|y b] [|z c]; simpl;
    try discriminate; auto.
  destruct (Ascii.compare x y) eqn:Exy; try discriminate;
    destruct (Ascii.compare y z) eqn:Eyz; try discriminate; intros H1 H2.
  - apply Ascii.compare_eq_iff in Exy, Eyz; subst.
    rewrite ascii_compare_refl; eauto.
  - apply Ascii.compare_eq_iff in Exy; subst; now rewrite Eyz.
  - apply Ascii.compare_eq_iff in Eyz; subst; now rewrite Exy.
  - now rewrite (ascii_compare_lt_trans _ _ _ Exy Eyz).
Qed.

Lemma strings_Compare_facts (x y z : string) :
  (strings_Compare x y = 0 -> strings_Compare x z = strings_Compare y z) /\
  (strings_Compare y z = 0 -> strings_Compare x z = strings_Compare x y) /\
  (strings_Compare x y < 0 -> strings_Compare y z < 0 ->
   strings_Compare x z < 0) /\
  -1 <= strings_Compare x y <= 1 /\ -1 <= strings_Compare y z <= 1 /\
  -1 <= strings_Compare x z <= 1.
Proof.
  repeat split; try (intros H; apply strings_Compare_zero in H; now subst);
    unfold strings_Compare;
    try (destruct (String.compare _ _); discriminate).
  - destruct (String.compare x y) eqn:E1; try lia;
      destruct (String.compare y z) eqn:E2; try lia.
    now rewrite (string_compare_lt_trans _ _ _ E1 E2).
Qed.

Lemma string_leb_trans (a b c : string) :
  String.leb a b = true -> String.leb b c = true -> String.leb a c = true.
Proof.
  unfold String.leb.
  destruct (String.compare a b) eqn:E1; try discriminate;
    destruct (String.compare b c) eqn:E2; try discriminate; intros _ _.
  - apply String.compare_eq_iff in E1, E2; subst; now rewrite string_compare_refl.
  - apply String.compare_eq_iff in E1; subst; now rewrite E2.
  - apply String.compare_eq_iff in E2; subst; now rewrite E1.
  - now rewrite (string_compare_lt_trans _ _ _ E1 E2).
Qed.

(** ** Order properties of [Compare] and [Less] *)

Section CompareOrder.

Context {value : Type} (Compare : value -> value -> Z).

Lemma lex_compare_trans :
  (forall a b c, (Compare a b < 0 /\ Compare b c <= 0) \/
                 (Compare a b <= 0 /\ Compare b c < 0) -> Compare a c < 0) ->
  (forall a b c, Compare a b = 0 -> Compare b c = 0 -> Compare a c = 0) ->
  forall f g h : FieldList value,
  lex_compare Compare f g < 0 -> lex_compare Compare g h < 0 ->
  lex_compare Compare f h < 0.
Proof.
  intros Hlt Heq f; induction f as [|a f IH]; intros [|b g] [|c h];
    cbn [lex_compare]; try lia.
  pose proof (strings_Compare_facts (Name a) (Name b) (Name c))
    as (S1 & S2 & S3 & R1 & R2 & R3).
  pose proof (Hlt (Value a) (Value b) (Value c)) as V1.
  pose proof (Heq (Value a) (Value b) (Value c)) as V2.
  destruct (Z.eqb_spec (strings_Compare (Name a) (Name b)) 0);
  destruct (Z.eqb_spec (strings_Compare (Name b) (Name c)) 0);
  destruct (Z.eqb_spec (strings_Compare (Name a) (Name c)) 0);
  destruct (Z.eqb_spec (Compare (Value a) (Value b)) 0);
  destruct (Z.eqb_spec (Compare (Value b) (Value c)) 0);
  destruct (Z.eqb_spec (Compare (Value a) (Value c)) 0);
  simpl; intros H1 H2; try lia.
  now apply (IH g h).
Qed.

Lemma lex_compare_range :
  (forall a b, -1 <= Compare a b <= 1) ->
  forall f g : FieldList value, -1 <= lex_compare Compare f g <= 1.
Proof.
  intros Hr f; induction f as [|a f IH]; intros [|b g]; cbn [lex_compare];
    try lia.
  pose proof (strings_Compare_facts (Name a) (Name b) (Name b))
    as (_ & _ & _ & R & _).
  pose proof (Hr (Value a) (Value b)).
  destruct (strings_Compare (Name a) (Name b) =? 0), (Compare (Value a) (Value b) =? 0);
    simpl; auto.
Qed.

Lemma lex_compare_app_prefix :
  forall p g1 g2 : FieldList value,
  Forall (fun x => Compare (Value x) (Value x) = 0) p ->
  lex_compare Compare (p ++ g1) (p ++ g2) = lex_compare Compare g1 g2.
Proof.
  intros p g1 g2 Hp; induction Hp as [|x p Hx Hp IH]; [reflexivity|].
  simpl app; cbn [lex_compare].
  rewrite (proj2 (strings_Compare_zero _ _) eq_refl), Hx; exact IH.
Qed.

End CompareOrder.

(** ** Successful decoding and encoding *)

Section CodecFacts.

Context {value any : Type} (NewValueInterface : any -> value)
  (UnmarshalString : list Byte.byte -> result string)
  (UnmarshalInterface : list Byte.byte -> result any).


Lemma FromJSON_loop_ok (st : list parse_result) :
  forall fields l,
  FromJSON_loop NewValueInterface UnmarshalString UnmarshalInterface st fields
    = (l, None) ->
  exists ps rest l', st = pair_tokens ps ++ rest /\ fst (Parse rest) = PEOF /\
    l = fields ++ l' /\ Forall2 (decodes_to NewValueInterface UnmarshalString UnmarshalInterface) ps l'.
Proof.
  induction st as [|st|m st|k|k st|k m st|k v st IHst]
    using parse_results_ind; intros fields l H; simpl in H;
    try discriminate.
  - injection H as <-; exists [], [], [].
    split; [reflexivity|]; split; [reflexivity|].
    split; [now rewrite app_nil_r|constructor].
  - injection H as <-; exists [], (PEOF :: st), [].
    split; [reflexivity|]; split; [reflexivity|].
    split; [now rewrite app_nil_r|constructor].
  - destruct (UnmarshalString k) as [key|m] eqn:Ek;
      [destruct (UnmarshalInterface v) as [x|m] eqn:Ev|];
      simpl in H; try discriminate.
    destruct (IHst _ _ H) as (ps & rest & l' & -> & Hrest & -> & Hps).
    exists ((k, v) :: ps), rest, (mkField key (NewValueInterface x) :: l').
    rewrite <- app_assoc; repeat split; auto.
    constructor; [|assumption].
    simpl; split; [assumption|eauto].
Qed.

Lemma FromJSON_loop_pairs (ps : list (list Byte.byte * list Byte.byte))
    (l : FieldList value) (rest : list parse_result) :
  Forall2 (decodes_to NewValueInterface UnmarshalString UnmarshalInterface) ps l ->
  fst (Parse rest) = PEOF ->
  forall fields,
  FromJSON_loop NewValueInterface UnmarshalString UnmarshalInterface
    (pair_tokens ps ++ rest) fields = (fields ++ l, None).
Proof.
  intros Hps Hrest; induction Hps as [|[k v] f ps l [Ek (x & Ev & Hf)] Hps IH];
    intros fields.
  - rewrite app_nil_r.
    destruct rest as [|[r| |m] rest]; simpl in Hrest; try discriminate;
      reflexivity.
  - simpl in Ek, Ev; simpl; rewrite Ek, Ev, IH, <- app_assoc.
    destruct f as [n y]; simpl in Hf; subst y; reflexivity.
Qed.

End CodecFacts.

Section ToJSONFacts.

Context {value any : Type} (Unstructured : value -> any)
  (string_any : string -> any)
  (WriteJSON : list Byte.byte -> any -> list Byte.byte * error).

Lemma ToJSON_loop_shape (enc : any -> list Byte.byte) :
  (forall w x, WriteJSON w x = (w ++ enc x, None)) ->
  forall rest w i n, (i + List.length rest = n)%nat ->
  ToJSON_loop Unstructured string_any WriteJSON w i n rest =
  (w ++ join_comma (map (fun f => enc (string_any (Name f)) ++
                           Byte.x3a :: enc (Unstructured (Value f))) rest),
   None).
Proof.
  intros Happ rest; induction rest as [|f rest IH]; intros w i n Hn.
  - simpl; now rewrite app_nil_r.
  - cbn [ToJSON_loop]; rewrite Happ; unfold WriteByte; rewrite Happ.
    simpl in Hn.
    destruct rest as [|g rest].
    + simpl in Hn.
      replace (i <? n - 1)%nat with false by (symmetry; apply Nat.ltb_ge; lia).
      simpl; now rewrite <- !app_assoc.
    + replace (i <? n - 1)%nat with true by (symmetry; apply Nat.ltb_lt; simpl in Hn; lia).
      rewrite IH by (simpl in *; lia).
      cbn [map join_comma].
      now rewrite <- !app_assoc.
Qed.

Lemma ToJSON_loop_error :
  forall rest w i n w' e,
  ToJSON_loop Unstructured string_any WriteJSON w i n rest = (w', Some e) ->
  exists w0 x, WriteJSON w0 x = (w', Some e).
Proof.
  intros rest; induction rest as [|f rest IH]; intros w i n w' e H;
    [discriminate|].
  cbn [ToJSON_loop] in H.
  destruct (WriteJSON w (string_any (Name f))) as [w1 [e1|]] eqn:E1.
  - injection H as <- <-; eauto.
  - destruct (WriteJSON (WriteByte w1 Byte.x3a) (Unstructured (Value f)))
      as [w2 [e2|]] eqn:E2.
    + injection H as <- <-; eauto.
    + eapply IH; exact H.
Qed.

End ToJSONFacts.

(** ** Sorted permutations with distinct names *)

Section SortCanonical.

Context {value : Type}.

Lemma name_le_trans (x y z : Field value) :
  name_le x y -> name_le y z -> name_le x z.
Proof. apply string_leb_trans. Qed.

Lemma sorted_perm_eq (l1 l2 : FieldList value) :
  Sorted name_le l1 -> Sorted name_le l2 -> Permutation l1 l2 ->
  NoDup (map Name l1) -> l1 = l2.
Proof.
  intros S1 S2.
  apply Sorted_StronglySorted in S1; [|exact name_le_trans].
  apply Sorted_StronglySorted in S2; [|exact name_le_trans].
  revert l2 S2; induction S1 as [|x l1 S1 IH Hx]; intros l2 S2 Hp Hnd.
  - now apply Permutation_nil in Hp.
  - destruct l2 as [|y l2]; [now apply Permutation_sym, Permutation_nil_cons in Hp|].
    inversion S2 as [|? ? S2' Hy]; subst.
    simpl in Hnd; inversion Hnd as [|? ? Hnin Hnd']; subst.
    assert (Hxy : x = y).
    { destruct (Permutation_in x Hp (or_introl eq_refl)) as [<-|Hxin];
        [reflexivity|].
      destruct (Permutation_in y (Permutation_sym Hp) (or_introl eq_refl))
        as [->|Hyin]; [reflexivity|].
      pose proof (proj1 (Forall_forall _ _) Hy x Hxin) as Hyx.
      pose proof (proj1 (Forall_forall _ _) Hx y Hyin) as Hxy'.
      exfalso; apply Hnin.
      rewrite (String.leb_antisym _ _ Hxy' Hyx).
      now apply in_map. }
    subst y; f_equal.
    apply IH; auto.
    now apply Permutation_cons_inv in Hp.
Qed.

End SortCanonical.

(** ** A concrete value comparison *)

Lemma int_Compare_spec (a b : Z) :
  (int_Compare a b = -1 /\ a < b) \/ (int_Compare a b = 0 /\ a = b) \/
  (int_Compare a b = 1 /\ a > b).
Proof.
  unfold int_Compare; destruct (Z.compare_spec a b); simpl; lia.
Qed.

(** * Further properties, stated on the code *)

(** ** Compare *)

(** [FieldList.Compare] is transitive in sign: if [Compare(f,g) < 0] and
    [Compare(g,h) < 0] then [Compare(f,h) < 0], whenever the value comparison
    is transitive in the same sense (with 0 as an equivalence). *)
Theorem Compare_trans {value : Type} (Compare : value -> value -> Z) :
  (forall a b c, (Compare a b < 0 /\ Compare b c <= 0) \/
                 (Compare a b <= 0 /\ Compare b c < 0) -> Compare a c < 0) ->
  (forall a b c, Compare a b = 0 -> Compare b c = 0 -> Compare a c = 0) ->
  forall f g h : FieldList value,
  FieldList_Compare Compare f g < 0 -> FieldList_Compare Compare g h < 0 ->
  FieldList_Compare Compare f h < 0.
Proof.
  intros Hlt Heq f g h; rewrite !FieldList_Compare_lex.
  now apply lex_compare_trans.
Qed.

Lemma Compare_trans_witness :
  FieldList_Compare int_Compare [mkField "a" 1] [mkField "a" 2] < 0 /\
  FieldList_Compare int_Compare [mkField "a" 2] [mkField "b" 0] < 0 /\
  FieldList_Compare int_Compare [mkField "a" 1] [mkField "b" 0] < 0.
Proof.
  assert (H1 : forall a b c, (int_Compare a b < 0 /\ int_Compare b c <= 0) \/
            (int_Compare a b <= 0 /\ int_Compare b c < 0) -> int_Compare a c < 0).
  { intros a b c; pose proof (int_Compare_spec a b);
      pose proof (int_Compare_spec b c); pose proof (int_Compare_spec a c); lia. }
  assert (H2 : forall a b c, int_Compare a b = 0 -> int_Compare b c = 0 ->
            int_Compare a c = 0).
  { intros a b c; pose proof (int_Compare_spec a b);
      pose proof (int_Compare_spec b c); pose proof (int_Compare_spec a c); lia. }
  assert (Hfg : FieldList_Compare int_Compare [mkField "a" 1] [mkField "a" 2] < 0)
    by (vm_compute; reflexivity).
  assert (Hgh : FieldList_Compare int_Compare [mkField "a" 2] [mkField "b" 0] < 0)
    by (vm_compute; reflexivity).
  split; [exact Hfg|]; split; [exact Hgh|].
  exact (Compare_trans int_Compare H1 H2 _ _ _ Hfg Hgh).
Defined.

(** When the value comparison returns only -1, 0 or +1, so does
    [FieldList.Compare], and [Less(f,g)] (defined as [Compare(f,g) == -1])
    holds exactly when [Compare(f,g) < 0]. *)
Theorem Compare_range_Less {value : Type} (Compare : value -> value -> Z) :
  (forall a b, -1 <= Compare a b <= 1) ->
  forall f g : FieldList value,
  -1 <= FieldList_Compare Compare f g <= 1 /\
  (FieldList_Less Compare f g = true <-> FieldList_Compare Compare f g < 0).
Proof.
  intros Hr f g; unfold FieldList_Less.
  pose proof (lex_compare_range Compare Hr f g) as R.
  rewrite FieldList_Compare_lex in *.
  split; [exact R|].
  rewrite Z.eqb_eq; lia.
Qed.

Lemma Compare_range_Less_witness :
  -1 <= FieldList_Compare int_Compare [mkField "b" 1] [mkField "a" 5; mkField "c" 2] <= 1 /\
  (FieldList_Less int_Compare [mkField "b" 1] [mkField "a" 5; mkField "c" 2] = true <->
   FieldList_Compare int_Compare [mkField "b" 1] [mkField "a" 5; mkField "c" 2] < 0).
Proof.
  apply Compare_range_Less.
  intros a b; pose proof (int_Compare_spec a b); lia.
Defined.

(** [Less] is a strict order: irreflexive, asymmetric and transitive, when the
    value comparison is antisymmetric, returns only -1, 0 or +1 and is
    transitive. *)
Theorem Less_strict_order {value : Type} (Compare : value -> value -> Z) :
  (forall a b, Compare a b = - Compare b a) ->
  (forall a b, -1 <= Compare a b <= 1) ->
  (forall a b c, (Compare a b < 0 /\ Compare b c <= 0) \/
                 (Compare a b <= 0 /\ Compare b c < 0) -> Compare a c < 0) ->
  (forall a b c, Compare a b = 0 -> Compare b c = 0 -> Compare a c = 0) ->
  forall f g h : FieldList value,
  FieldList_Less Compare f f = false /\
  (FieldList_Less Compare f g = true -> FieldList_Less Compare g f = false) /\
  (FieldList_Less Compare f g = true -> FieldList_Less Compare g h = true ->
   FieldList_Less Compare f h = true).
Proof.
  intros Hanti Hr Hlt Heq f g h; unfold FieldList_Less.
  rewrite !FieldList_Compare_lex.
  pose proof (lex_compare_antisym Compare Hanti f f).
  pose proof (lex_compare_antisym Compare Hanti f g).
  pose proof (lex_compare_range Compare Hr f h).
  pose proof (lex_compare_trans Compare Hlt Heq f g h).
  rewrite !Z.eqb_eq; repeat split.
  - apply Z.eqb_neq; lia.
  - intros Hfg; apply Z.eqb_neq; lia.
  - intros Hfg Hgh; lia.
Qed.

Lemma Less_strict_order_witness :
  FieldList_Less int_Compare [mkField "a" 1] [mkField "a" 1] = false /\
  (FieldList_Less int_Compare [mkField "a" 1] [mkField "b" 0] = true ->
   FieldList_Less int_Compare [mkField "b" 0] [mkField "a" 1] = false) /\
  (FieldList_Less int_Compare [mkField "a" 1] [mkField "b" 0] = true ->
   FieldList_Less int_Compare [mkField "b" 0] [mkField "b" 0; mkField "c" 3] = true ->
   FieldList_Less int_Compare [mkField "a" 1] [mkField "b" 0; mkField "c" 3] = true).
Proof.
  apply Less_strict_order;
    [ intros a b; pose proof (int_Compare_spec a b); pose proof (int_Compare_spec b a); lia
    | intros a b; pose proof (int_Compare_spec a b); lia
    | intros a b c; pose proof (int_Compare_spec a b);
      pose proof (int_Compare_spec b c); pose proof (int_Compare_spec a c); lia
    | intros a b c; pose proof (int_Compare_spec a b);
      pose proof (int_Compare_spec b c); pose proof (int_Compare_spec a c); lia ].
Defined.

(** A common prefix does not affect [Compare]:
    [Compare(p ++ g1, p ++ g2) = Compare(g1, g2)] when the value comparison
    returns 0 on each value of [p] against itself. *)
Theorem Compare_common_prefix {value : Type} (Compare : value -> value -> Z)
    (p g1 g2 : FieldList value) :
  Forall (fun x => Compare (Value x) (Value x) = 0) p ->
  FieldList_Compare Compare (p ++ g1) (p ++ g2) = FieldList_Compare Compare g1 g2.
Proof.
  intros Hp; rewrite !FieldList_Compare_lex.
  now apply lex_compare_app_prefix.
Qed.

Lemma Compare_common_prefix_witness :
  FieldList_Compare int_Compare ([mkField "a" 1] ++ [mkField "c" 1])
                                ([mkField "a" 1] ++ [mkField "b" 9])
  = FieldList_Compare int_Compare [mkField "c" 1] [mkField "b" 9].
Proof.
  apply Compare_common_prefix; repeat constructor.
Defined.

(** ** Equals *)

(** [FieldList.Equals] is reflexive when the value equality is, and
    symmetric when the value equality is symmetric; each conclusion needs
    only its own hypothesis. *)
Theorem Equals_refl_sym {value : Type} (Equals : value -> value -> bool) :
  ((forall v, Equals v v = true) ->
   forall f : FieldList value, FieldList_Equals Equals f f = true) /\
  ((forall a b, Equals a b = Equals b a) ->
   forall f g : FieldList value,
   FieldList_Equals Equals f g = FieldList_Equals Equals g f).
Proof.
  split.
  - intros Hrefl f; induction f as [|a f IH]; [reflexivity|].
    rewrite FieldList_Equals_cons, String.eqb_refl, Hrefl; exact IH.
  - intros Hsym f; induction f as [|a f IH]; intros [|b g]; try reflexivity.
    rewrite !FieldList_Equals_cons, String.eqb_sym, Hsym, IH; reflexivity.
Qed.

Lemma Equals_refl_sym_witness :
  FieldList_Equals int_Equals [mkField "a" 1; mkField "b" 2] [mkField "a" 1; mkField "b" 2] = true /\
  FieldList_Equals int_Equals [mkField "a" 1; mkField "b" 2] [mkField "a" 1] =
  FieldList_Equals int_Equals [mkField "a" 1] [mkField "a" 1; mkField "b" 2].
Proof.
  split.
  - apply (proj1 (Equals_refl_sym int_Equals)); intros v; apply Z.eqb_refl.
  - apply (proj2 (Equals_refl_sym int_Equals)); intros a b; apply Z.eqb_sym.
Defined.

(** ** Sort *)

(** [Sort] gives a canonical form for lists with distinct names: two field
    lists that are reorderings of each other, with no name repeated, sort to
    the same list. *)
Theorem Sort_canonical {value : Type} (f g : FieldList value) :
  Permutation f g -> NoDup (map Name f) -> Sort f = Sort g.
Proof.
  intros Hp Hnd; rewrite !Sort_SliceStable.
  apply sorted_perm_eq; try apply SliceStable_sorted.
  - rewrite (SliceStable_perm f), (SliceStable_perm g); exact Hp.
  - apply (Permutation_NoDup (Permutation_map Name (Permutation_sym (SliceStable_perm f)))).
    exact Hnd.
Qed.

Lemma Sort_canonical_witness :
  Sort [mkField "c" 3; mkField "a" 1; mkField "b" 2] =
  Sort [mkField "b" 2; mkField "c" 3; mkField "a" 1].
Proof.
  apply Sort_canonical.
  - apply (Permutation_trans (l' := [mkField "a" 1; mkField "c" 3; mkField "b" 2]));
      [apply perm_swap|].
    apply (Permutation_trans (l' := [mkField "a" 1; mkField "b" 2; mkField "c" 3]));
      [constructor; apply perm_swap|].
    apply Permutation_sym.
    apply (Permutation_trans (l' := [mkField "b" 2; mkField "a" 1; mkField "c" 3]));
      [constructor; apply perm_swap|apply perm_swap].
  - repeat constructor; simpl; intuition discriminate.
Defined.

(** ** FieldListFromJSON *)

(** [FieldListFromJSON] succeeds with the list [l] exactly when the parser
    yields complete key/value token pairs, each decoding without error, and
    then signals end of input where a key is expected; [l] holds the decoded
    pairs in the order they arrived, one field per pair, repeated names
    included. *)
Theorem FromJSON_success {value any : Type}
    (NewValueInterface : any -> value)
    (UnmarshalString : list Byte.byte -> result string)
    (UnmarshalInterface : list Byte.byte -> result any)
    (NewFastObjParser : list Byte.byte -> list parse_result)
    (input : list Byte.byte) (l : FieldList value) :
  FieldListFromJSON NewValueInterface UnmarshalString UnmarshalInterface
    NewFastObjParser input = (l, None) <->
  exists ps rest,
    NewFastObjParser input = pair_tokens ps ++ rest /\
    fst (Parse rest) = PEOF /\
    Forall2 (decodes_to NewValueInterface UnmarshalString UnmarshalInterface)
      ps l.
Proof.
  unfold FieldListFromJSON; split.
  - intros H.
    destruct (FromJSON_loop_ok NewValueInterface UnmarshalString
                UnmarshalInterface _ _ _ H)
      as (ps & rest & l' & Hst & Hrest & -> & Hps).
    exists ps, rest; auto.
  - intros (ps & rest & -> & Hrest & Hps).
    now rewrite (FromJSON_loop_pairs NewValueInterface UnmarshalString
                   UnmarshalInterface ps l rest Hps Hrest []).
Qed.

(** ** FieldListToJSON *)

(** When every [WriteJSON] call appends the encoding of its argument and
    succeeds, [FieldListToJSON] appends [{], then for each field in list
    order its encoded name, [:] and its encoded value, with [,] between
    consecutive members and none after the last, then [}], and returns nil. *)
Theorem ToJSON_output {value any : Type} (Unstructured : value -> any)
    (string_any : string -> any)
    (WriteJSON : list Byte.byte -> any -> list Byte.byte * error)
    (enc : any -> list Byte.byte) :
  (forall w x, WriteJSON w x = (w ++ enc x, None)) ->
  forall (v : FieldList value) (w : list Byte.byte),
  FieldListToJSON Unstructured string_any WriteJSON v w =
  (w ++ [Byte.x7b] ++
     join_comma (map (fun f => enc (string_any (Name f)) ++
                                Byte.x3a :: enc (Unstructured (Value f))) v) ++
     [Byte.x7d], None).
Proof.
  intros Happ v w; unfold FieldListToJSON.
  rewrite (ToJSON_loop_shape Unstructured string_any WriteJSON enc Happ v
             (WriteByte w Byte.x7b) 0 (List.length v) eq_refl).
  unfold WriteByte; now rewrite <- !app_assoc.
Qed.

Lemma ToJSON_output_witness :
  FieldListToJSON (fun x : Z => x) (fun _ => 0) (fun w _ => (w ++ [Byte.x30], None))
    [mkField "a" 1; mkField "b" 2] [] =
  ([Byte.x7b; Byte.x30; Byte.x3a; Byte.x30; Byte.x2c;
    Byte.x30; Byte.x3a; Byte.x30; Byte.x7d], None).
Proof.
  rewrite (ToJSON_output (fun x : Z => x) (fun _ => 0)
             (fun w _ => (w ++ [Byte.x30], None)) (fun _ => [Byte.x30])
             (fun w x => eq_refl)).
  reflexivity.
Defined.

(** [FieldListToJSON] returns the error of a failing [WriteJSON] call
    unchanged and writes nothing after it: the builder state it leaves is the
    one that call returned. *)
Theorem ToJSON_error_unchanged {value any : Type} (Unstructured : value -> any)
    (string_any : string -> any)
    (WriteJSON : list Byte.byte -> any -> list Byte.byte * error)
    (v : FieldList value) (w w' : list Byte.byte) (e : string) :
  FieldListToJSON Unstructured string_any WriteJSON v w = (w', Some e) ->
  exists w0 x, WriteJSON w0 x = (w', Some e).
Proof.
  unfold FieldListToJSON.
  destruct (ToJSON_loop Unstructured string_any WriteJSON (WriteByte w Byte.x7b)
              0 (List.length v) v) as [w1 [e1|]] eqn:E; intros H;
    [|discriminate].
  injection H as <- <-.
  exact (ToJSON_loop_error Unstructured string_any WriteJSON _ _ _ _ _ _ E).
Qed.

Lemma ToJSON_error_unchanged_witness :
  FieldListToJSON (fun x : Z => x) (fun _ => 0)
    (fun w _ => (w, Some "unsupported value"%string)) [mkField "a" 1] []
  = ([Byte.x7b], Some "unsupported value"%string) /\
  exists w0 x, (fun (w : list Byte.byte) (_ : Z) => (w, Some "unsupported value"%string))
                 w0 x = ([Byte.x7b], Some "unsupported value"%string).
Proof.
  assert (H : FieldListToJSON (fun x : Z => x) (fun _ => 0)
                (fun w _ => (w, Some "unsupported value"%string)) [mkField "a" 1] []
              = ([Byte.x7b], Some "unsupported value"%string)) by reflexivity.
  split; [exact H|].
  exact (ToJSON_error_unchanged _ _ _ _ _ _ _ H).
Defined.
